(** * PocketCube servo sequencer (Servos.cpp, Servos.h, Config.h)

    A shallow embedding of the [Servos] class of the PocketCube Arduino
    sketch: the tracked rotation angle, the PCA9685 channel registers the
    class writes through [pwm.setPWM], and the blocking [delay] calls, in the
    order in which the sketch issues them. *)

From Stdlib Require Import ZArith Lia.
From stdpp Require Import base option list gmap.

Local Open Scope Z_scope.

(** ** Config.h *)

Module Config.

Definition PWM_FREQUENCY_HZ : Z := 50.
Definition TURN_SERVO_CHANNEL : Z := 0.
Definition ROTATE_SERVO_CHANNEL : Z := 1.

Definition TURN_SERVO_MIN : Z := 100.
Definition TURN_SERVO_MAX : Z := 380.

Definition ROTATE_SERVO_0 : Z := 102.
Definition ROTATE_SERVO_90 : Z := 247.
Definition ROTATE_SERVO_180 : Z := 397.
Definition ROTATE_SERVO_270 : Z := 533.

Definition TURN_DELAY_MS : Z := 550.
Definition ROTATE_DELAY_MS : Z := 650.

End Config.

(** ** The Arduino side: machine integers, the PWM board, [delay] *)

Module Arduino.

(** [int] on the AVR boards the sketch targets is 16 bits wide, two's
    complement; results of [+], [-], [*] are brought back into
    [-2^15 .. 2^15 - 1]. *)
Definition INT_BITS : Z := 16.
Definition INT_MIN : Z := - 2 ^ (INT_BITS - 1).
Definition INT_MAX : Z := 2 ^ (INT_BITS - 1) - 1.

Definition int_wrap (z : Z) : Z :=
  (z + 2 ^ (INT_BITS - 1)) mod 2 ^ INT_BITS - 2 ^ (INT_BITS - 1).

Definition int_add (a b : Z) : Z := int_wrap (a + b).
Definition int_sub (a b : Z) : Z := int_wrap (a - b).
Definition int_mul (a b : Z) : Z := int_wrap (a * b).
Definition int_neg (a : Z) : Z := int_wrap (- a).
(** C division truncates towards zero. *)
Definition int_div (a b : Z) : Z := int_wrap (a ÷ b).

(** Arduino.h: [#define abs(x) ((x)>0?(x):-(x))]. *)
Definition abs (x : Z) : Z := if 0 <? x then x else int_neg x.

(** Conversions at the call boundaries: [setPWM(uint8_t, uint16_t,
    uint16_t)] and [delay(unsigned long)]. *)
Definition to_uint8 (z : Z) : Z := z mod 2 ^ 8.
Definition to_uint16 (z : Z) : Z := z mod 2 ^ 16.
Definition to_ulong (z : Z) : Z := z mod 2 ^ 32.

(** What the sketch does to the outside world, one entry per call. *)
Inductive event : Type :=
| SetPWM (num on off : Z)
| Delay (ms : Z).

Global Instance event_eq_dec : EqDecision event.
Proof. solve_decision. Defined.

(** Milliseconds spent blocked in [delay] over a run of events. *)
Fixpoint wait_ms (tr : list event) : Z :=
  match tr with
  | [] => 0
  | Delay ms :: tr' => ms + wait_ms tr'
  | SetPWM _ _ _ :: tr' => wait_ms tr'
  end.

(** Does the event write channel [ch] of the board? *)
Definition writes_channel (ch : Z) (e : event) : bool :=
  match e with
  | SetPWM num _ _ => bool_decide (num = ch)
  | Delay _ => false
  end.

End Arduino.

(** ** Servos.h / Servos.cpp *)

Module Servos.

Import Config Arduino.

(** The attributes of the class, and the history of board-level calls.
    [pwm] keeps, per channel, the (on, off) pair last written: the board
    holds a signal until the channel is written again. *)
Record state : Type := mkState {
  rotationAngleDegree : Z;
  pwm : gmap Z (Z * Z);
  trace : list event
}.

(** Servos.h:22, [int rotationAngleDegree = 0], before any board call. *)
Definition initial : state :=
  {| rotationAngleDegree := 0; pwm := ∅; trace := [] |}.

(** Methods are [void]; they read and update the object in place. *)
Definition Cmd (A : Type) : Type := state → A * state.

Global Instance Cmd_ret : MRet Cmd := λ A a s, (a, s).
Global Instance Cmd_bind : MBind Cmd := λ A B f c s,
  let '(a, s') := c s in f a s'.

Definition exec {A} (c : Cmd A) (s : state) : state := (c s).2.

(** [pwm.setPWM(num, on, off)] *)
Definition setPWM (num on off : Z) : Cmd unit := λ s,
  let num := to_uint8 num in
  let on := to_uint16 on in
  let off := to_uint16 off in
  (tt, {| rotationAngleDegree := rotationAngleDegree s;
          pwm := <[num := (on, off)]> (pwm s);
          trace := trace s ++ [SetPWM num on off] |}).

(** [delay(ms)] *)
Definition delay (ms : Z) : Cmd unit := λ s,
  (tt, {| rotationAngleDegree := rotationAngleDegree s;
          pwm := pwm s;
          trace := trace s ++ [Delay (to_ulong ms)] |}).

Definition get_rotationAngleDegree : Cmd Z := λ s,
  (rotationAngleDegree s, s).

Definition set_rotationAngleDegree (a : Z) : Cmd unit := λ s,
  (tt, {| rotationAngleDegree := a; pwm := pwm s; trace := trace s |}).

(** Servos.cpp:41-46 *)
Definition rotationTicks : list Z :=
  [ROTATE_SERVO_0; ROTATE_SERVO_90; ROTATE_SERVO_180; ROTATE_SERVO_270].

(** [rotationTicks[i]]; the only read sits behind the guard of
    [rotateTo], where [i] is 0, 1, 2 or 3. *)
Definition rotationTicks_at (i : Z) : Z :=
  default 0 (rotationTicks !! Z.to_nat i).

(** The guard of [rotateTo], Servos.cpp:102. *)
Definition angle_guard (angleDegree : Z) : bool :=
  (angleDegree =? 0) || (angleDegree =? 90)
  || (angleDegree =? 180) || (angleDegree =? 270).

(** Servos.cpp:103, [abs(rotationAngleDegree - angleDegree) / 90]. *)
Definition numberSteps90 (current angleDegree : Z) : Z :=
  int_div (abs (int_sub current angleDegree)) 90.

(** Servos.cpp:101-110 *)
Definition rotateTo (angleDegree : Z) : Cmd unit :=
  if angle_guard angleDegree then
    current ← get_rotationAngleDegree;
    let steps := numberSteps90 current angleDegree in
    let pcaTicks := rotationTicks_at (int_div angleDegree 90) in
    setPWM ROTATE_SERVO_CHANNEL 0 pcaTicks;;
    delay (int_mul steps ROTATE_DELAY_MS);;
    set_rotationAngleDegree angleDegree
  else mret tt.

(** Servos.cpp:65-73 *)
Definition initPositions : Cmd unit :=
  setPWM TURN_SERVO_CHANNEL 0 TURN_SERVO_MIN;;
  delay TURN_DELAY_MS;;
  rotateTo 0;;
  delay (int_mul 2 ROTATE_DELAY_MS).

(** Servos.cpp:81-86 *)
Definition rotateLeft : Cmd unit :=
  current ← get_rotationAngleDegree;
  if 0 <? current then rotateTo (int_sub current 90)
  else rotateTo 270.

(** Servos.cpp:90-95 *)
Definition rotateRight : Cmd unit :=
  current ← get_rotationAngleDegree;
  if current <? 270 then rotateTo (int_add current 90)
  else rotateTo 0.

(** Servos.cpp:122-127 *)
Definition turnCube : Cmd unit :=
  setPWM TURN_SERVO_CHANNEL 0 TURN_SERVO_MAX;;
  delay TURN_DELAY_MS;;
  setPWM TURN_SERVO_CHANNEL 0 TURN_SERVO_MIN;;
  delay TURN_DELAY_MS.

(** *** Vocabulary of the statements *)

(** The four stops of the rotation servo. *)
Definition valid_angle (a : Z) : Prop :=
  a = 0 ∨ a = 90 ∨ a = 180 ∨ a = 270.

Global Instance valid_angle_dec a : Decision (valid_angle a).
Proof. unfold valid_angle. apply _. Defined.

(** Config.h:40-43 read as a table, stop by stop. *)
Definition calibrated_tick (angle : Z) : option Z :=
  if angle =? 0 then Some ROTATE_SERVO_0
  else if angle =? 90 then Some ROTATE_SERVO_90
  else if angle =? 180 then Some ROTATE_SERVO_180
  else if angle =? 270 then Some ROTATE_SERVO_270
  else None.

(** The PCA9685 compares a 12-bit counter against the tick values. *)
Definition tick_in_range (t : Z) : Prop := 0 ≤ t ≤ 4095.

Fixpoint strictly_increasing (l : list Z) : Prop :=
  match l with
  | x :: (y :: _) as l' => x < y ∧ strictly_increasing l'
  | _ => True
  end.

(** Events a command appends when run from [s], and the time it spends
    blocked. *)
Definition issued {A} (c : Cmd A) (s : state) : list event :=
  drop (length (trace s)) (trace (exec c s)).

Definition waited {A} (c : Cmd A) (s : state) : Z :=
  wait_ms (issued c s).

(** The rotation requests a caller can make, one per serial command. *)
Inductive call : Type :=
| RotateLeft
| RotateRight
| RotateTo (angleDegree : Z).

Definition perform (c : call) : Cmd unit :=
  match c with
  | RotateLeft => rotateLeft
  | RotateRight => rotateRight
  | RotateTo angleDegree => rotateTo angleDegree
  end.

(** The tracked angle after each call of a sequence, in order. *)
Fixpoint angles_after (calls : list call) (s : state) : list Z :=
  match calls with
  | [] => []
  | c :: calls' =>
      let s' := exec (perform c) s in
      rotationAngleDegree s' :: angles_after calls' s'
  end.

(** Every method the class offers after [initDriver] (Servos.h:30-36). *)
Inductive method : Type :=
| Rotation (c : call)
| InitPositions
| TurnCube.

Definition invoke (m : method) : Cmd unit :=
  match m with
  | Rotation c => perform c
  | InitPositions => initPositions
  | TurnCube => turnCube
  end.

Fixpoint invoke_all (ms : list method) : Cmd unit :=
  match ms with
  | [] => mret tt
  | m :: ms' => invoke m;; invoke_all ms'
  end.

(** The rotate channel carries the tick that belongs to the tracked angle,
    and the turn channel the holding tick. *)
Definition homed (s : state) : Prop :=
  (∃ tick, calibrated_tick (rotationAngleDegree s) = Some tick ∧
           pwm s !! ROTATE_SERVO_CHANNEL = Some (0, tick)) ∧
  pwm s !! TURN_SERVO_CHANNEL = Some (0, TURN_SERVO_MIN).

(** A board write that uses one of the two wired channels, switches on at
    tick 0 and off at a tick configured for that channel. *)
Definition calibrated_write (e : event) : Prop :=
  match e with
  | SetPWM num on off =>
      on = 0 ∧
      (num = TURN_SERVO_CHANNEL ∧ (off = TURN_SERVO_MIN ∨ off = TURN_SERVO_MAX)
       ∨ num = ROTATE_SERVO_CHANNEL ∧ off ∈ rotationTicks)
  | Delay _ => True
  end.

(** What the caller can see of the object: everything but the history. *)
Definition same_position (s1 s2 : state) : Prop :=
  rotationAngleDegree s1 = rotationAngleDegree s2 ∧ pwm s1 = pwm s2.

End Servos.

(** ** SerialCom.h / SerialCom.cpp *)

Module SerialCom.

Import Arduino.

(** [char] is signed and 8 bits wide on AVR. *)
Definition to_char (z : Z) : Z := (z + 2 ^ 7) mod 2 ^ 8 - 2 ^ 7.

(** What [receive] works on.  [Serial] is the Arduino core's receive queue:
    [serial_rx] are the bytes waiting in it, oldest first, and
    [serial_incoming] the bytes still on the wire, grouped by the [delay]
    call during which they arrive.  [readBuffer] is the function's
    [static char readBuffer[32]], which outlives the call. *)
Record sketch : Type := mkSketch {
  serial_rx : list Z;
  serial_incoming : list (list Z);
  readBuffer : list Z;
  history : list event
}.

(** Program start: static storage is zeroed. *)
Definition power_on (rx : list Z) (incoming : list (list Z)) : sketch :=
  {| serial_rx := rx; serial_incoming := incoming;
     readBuffer := replicate 32 0; history := [] |}.

(** Every byte the call could still get to see, in order of arrival. *)
Definition pending (p : sketch) : list Z :=
  serial_rx p ++ concat (serial_incoming p).

(** [Serial.available()] *)
Definition Serial_available (p : sketch) : Z :=
  Z.of_nat (length (serial_rx p)).

(** [Serial.read()]: the oldest byte, or -1 on an empty queue. *)
Definition Serial_read (p : sketch) : Z * sketch :=
  match serial_rx p with
  | [] => (-1, p)
  | b :: rest =>
      (b, {| serial_rx := rest; serial_incoming := serial_incoming p;
             readBuffer := readBuffer p; history := history p |})
  end.

(** [readBuffer[i] = c] *)
Definition store (i c : Z) (p : sketch) : sketch :=
  {| serial_rx := serial_rx p; serial_incoming := serial_incoming p;
     readBuffer := <[Z.to_nat i := c]> (readBuffer p);
     history := history p |}.

(** [delay(ms)]: time passes, and what was sent meanwhile is queued. *)
Definition delay (ms : Z) (p : sketch) : sketch :=
  {| serial_rx := serial_rx p ++ hd [] (serial_incoming p);
     serial_incoming := tl (serial_incoming p);
     readBuffer := readBuffer p;
     history := history p ++ [Delay (to_ulong ms)] |}.

Definition bufferSize : Z := 32.

(** The [while] loop of SerialCom.cpp:28-31, one iteration per unit of
    fuel; [None] when the fuel is used up before the loop exits. *)
Fixpoint receive_loop (fuel : nat) (bufferIndex : Z) (p : sketch)
  : option (Z * sketch) :=
  match fuel with
  | O => None
  | S fuel' =>
      if (0 <? Serial_available p) && (bufferIndex <? bufferSize) then
        let '(c, p1) := Serial_read p in
        let p2 := store bufferIndex (to_char c) p1 in
        let bufferIndex' := int_add bufferIndex 1 in
        let p3 := delay 3 p2 in
        receive_loop fuel' bufferIndex' p3
      else Some (bufferIndex, p)
  end.

(** SerialCom.cpp:23-35.  The result is [*count]; the returned pointer is
    [readBuffer] of the state.  The loop condition is evaluated at most
    [bufferSize + 1] times. *)
Definition receive (p : sketch) : option (Z * sketch) :=
  receive_loop (S (Z.to_nat bufferSize)) 0 p.

End SerialCom.

Import Config Arduino Servos.

(** ** Basic facts *)

Ltac valid_cases H :=
  destruct H as [H | [H | [H | H]]]; rewrite H in *; clear H.

(** Unfold the sequencing of a command down to the state it returns. *)
Ltac run_cmd :=
  cbv [mbind Cmd_bind mret Cmd_ret exec
       get_rotationAngleDegree set_rotationAngleDegree setPWM delay
       rotationAngleDegree pwm trace snd fst].

Lemma int_wrap_range z : INT_MIN ≤ int_wrap z ≤ INT_MAX.
Proof.
  unfold int_wrap, INT_MIN, INT_MAX, INT_BITS.
  pose proof (Z.mod_pos_bound (z + 2 ^ (16 - 1)) (2 ^ 16)). lia.
Qed.

Lemma int_wrap_small z : INT_MIN ≤ z ≤ INT_MAX → int_wrap z = z.
Proof.
  unfold int_wrap, INT_MIN, INT_MAX, INT_BITS. intros Hz.
  rewrite Z.mod_small; lia.
Qed.

Lemma angle_guard_valid a : angle_guard a = true ↔ valid_angle a.
Proof.
  unfold angle_guard, valid_angle.
  rewrite !orb_true_iff, !Z.eqb_eq. tauto.
Qed.

Lemma angle_guard_invalid a : ¬ valid_angle a → angle_guard a = false.
Proof.
  intros Hn. destruct (angle_guard a) eqn:E; [|done].
  by apply angle_guard_valid in E.
Qed.

Lemma wait_ms_app tr1 tr2 : wait_ms (tr1 ++ tr2) = wait_ms tr1 + wait_ms tr2.
Proof.
  induction tr1 as [|[num on off|ms] tr1 IH]; simpl; lia.
Qed.

Lemma issued_app {A} (c : Cmd A) s evs :
  trace (exec c s) = trace s ++ evs → issued c s = evs.
Proof. unfold issued. intros ->. apply drop_app_length. Qed.

(** A request the guard lets through: one write, one wait, one update. *)
Lemma rotateTo_accepted angleDegree s :
  angle_guard angleDegree = true →
  rotateTo angleDegree s =
    (tt, {| rotationAngleDegree := angleDegree;
            pwm := <[ROTATE_SERVO_CHANNEL :=
                       (0, to_uint16 (rotationTicks_at (int_div angleDegree 90)))]>
                     (pwm s);
            trace := trace s ++
              [SetPWM ROTATE_SERVO_CHANNEL 0
                 (to_uint16 (rotationTicks_at (int_div angleDegree 90)));
               Delay (to_ulong
                 (int_mul (numberSteps90 (rotationAngleDegree s) angleDegree)
                    ROTATE_DELAY_MS))] |}).
Proof.
  unfold rotateTo. intros ->. destruct s as [a p tr]. run_cmd.
  by rewrite <- app_assoc.
Qed.

Lemma rotateTo_rejected angleDegree s :
  angle_guard angleDegree = false → rotateTo angleDegree s = (tt, s).
Proof. unfold rotateTo. by intros ->. Qed.

(** Behind the guard the table is read inside its four entries. *)
Lemma rotationTicks_index_in_range angleDegree :
  angle_guard angleDegree = true →
  is_Some (rotationTicks !! Z.to_nat (int_div angleDegree 90)).
Proof.
  intros H. apply angle_guard_valid in H. valid_cases H; by eexists.
Qed.

Lemma pcaTicks_valid t :
  valid_angle t →
  calibrated_tick t = Some (to_uint16 (rotationTicks_at (int_div t 90))).
Proof. intros H. valid_cases H; reflexivity. Qed.

Lemma numberSteps90_valid a t :
  valid_angle a → valid_angle t → numberSteps90 a t = Z.abs (a - t) / 90.
Proof. intros Ha Ht. valid_cases Ha; valid_cases Ht; reflexivity. Qed.

Lemma rotate_delay_valid a t :
  valid_angle a → valid_angle t →
  to_ulong (int_mul (numberSteps90 a t) ROTATE_DELAY_MS)
  = Z.abs (a - t) / 90 * ROTATE_DELAY_MS.
Proof. intros Ha Ht. valid_cases Ha; valid_cases Ht; reflexivity. Qed.

Lemma exec_rotateTo_accepted t s :
  valid_angle t →
  exec (rotateTo t) s =
    {| rotationAngleDegree := t;
       pwm := <[ROTATE_SERVO_CHANNEL :=
                  (0, to_uint16 (rotationTicks_at (int_div t 90)))]> (pwm s);
       trace := trace s ++
         [SetPWM ROTATE_SERVO_CHANNEL 0
            (to_uint16 (rotationTicks_at (int_div t 90)));
          Delay (to_ulong
            (int_mul (numberSteps90 (rotationAngleDegree s) t)
               ROTATE_DELAY_MS))] |}.
Proof.
  intros Ht. unfold exec.
  by rewrite rotateTo_accepted by (by apply angle_guard_valid).
Qed.

Lemma rotateTo_angle_valid v s :
  valid_angle (rotationAngleDegree s) →
  valid_angle (rotationAngleDegree (exec (rotateTo v) s)).
Proof.
  intros Hs. destruct (angle_guard v) eqn:E.
  - apply angle_guard_valid in E. by rewrite exec_rotateTo_accepted.
  - unfold exec. by rewrite rotateTo_rejected.
Qed.

Lemma rotateLeft_angle_valid s :
  valid_angle (rotationAngleDegree s) →
  valid_angle (rotationAngleDegree (exec rotateLeft s)).
Proof.
  intros Hs. unfold rotateLeft. run_cmd. fold (rotationAngleDegree s).
  destruct (0 <? rotationAngleDegree s);
    by apply (rotateTo_angle_valid _ s).
Qed.

Lemma rotateRight_angle_valid s :
  valid_angle (rotationAngleDegree s) →
  valid_angle (rotationAngleDegree (exec rotateRight s)).
Proof.
  intros Hs. unfold rotateRight. run_cmd. fold (rotationAngleDegree s).
  destruct (rotationAngleDegree s <? 270);
    by apply (rotateTo_angle_valid _ s).
Qed.

Lemma perform_angle_valid c s :
  valid_angle (rotationAngleDegree s) →
  valid_angle (rotationAngleDegree (exec (perform c) s)).
Proof.
  destruct c as [| |v]; simpl.
  - apply rotateLeft_angle_valid.
  - apply rotateRight_angle_valid.
  - apply rotateTo_angle_valid.
Qed.

Lemma angles_after_valid calls :
  ∀ s, valid_angle (rotationAngleDegree s) →
       Forall valid_angle (angles_after calls s).
Proof.
  induction calls as [|c calls IH]; intros s Hs; simpl.
  - constructor.
  - pose proof (perform_angle_valid c s Hs) as Hs'.
    constructor; [exact Hs' | by apply IH].
Qed.

Lemma issued_rotateTo_accepted t s :
  valid_angle t →
  issued (rotateTo t) s =
    [SetPWM ROTATE_SERVO_CHANNEL 0
       (to_uint16 (rotationTicks_at (int_div t 90)));
     Delay (to_ulong
       (int_mul (numberSteps90 (rotationAngleDegree s) t) ROTATE_DELAY_MS))].
Proof.
  intros Ht. apply issued_app. by rewrite exec_rotateTo_accepted.
Qed.

(** ** rotateTo *)

(** C1. For valid target [t] and valid current angle, [rotateTo t] writes the
    calibrated tick of [t] to the rotate channel, then waits
    [|a - t| / 90 * ROTATE_DELAY_MS] milliseconds (the linear step count),
    and leaves [t] as the tracked angle. *)
Theorem rotateTo_valid_target s t :
  valid_angle t →
  valid_angle (rotationAngleDegree s) →
  ∃ tick,
    calibrated_tick t = Some tick ∧
    numberSteps90 (rotationAngleDegree s) t
      = Z.abs (rotationAngleDegree s - t) / 90 ∧
    rotateTo t s =
      (tt, {| rotationAngleDegree := t;
              pwm := <[ROTATE_SERVO_CHANNEL := (0, tick)]> (pwm s);
              trace := trace s ++
                [SetPWM ROTATE_SERVO_CHANNEL 0 tick;
                 Delay (Z.abs (rotationAngleDegree s - t) / 90
                        * ROTATE_DELAY_MS)] |}).
Proof.
  intros Ht Ha. eexists. split; [by apply pcaTicks_valid|].
  split; [by apply numberSteps90_valid|].
  rewrite rotateTo_accepted by (by apply angle_guard_valid).
  by rewrite rotate_delay_valid.
Qed.

Lemma rotateTo_valid_target_witness :
  valid_angle 270 ∧ valid_angle (rotationAngleDegree initial) ∧
  ∃ tick,
    calibrated_tick 270 = Some tick ∧
    numberSteps90 (rotationAngleDegree initial) 270
      = Z.abs (rotationAngleDegree initial - 270) / 90 ∧
    rotateTo 270 initial =
      (tt, {| rotationAngleDegree := 270;
              pwm := <[ROTATE_SERVO_CHANNEL := (0, tick)]> (pwm initial);
              trace := trace initial ++
                [SetPWM ROTATE_SERVO_CHANNEL 0 tick;
                 Delay (Z.abs (rotationAngleDegree initial - 270) / 90
                        * ROTATE_DELAY_MS)] |}).
Proof.
  split; [unfold valid_angle; lia|].
  split; [unfold valid_angle; simpl; lia|].
  apply (rotateTo_valid_target initial 270); unfold valid_angle; simpl; lia.
Defined.

(** Servos.cpp end to end: from 0, [rotateTo 180] takes two steps. *)
Example rotateTo_180_from_initial :
  rotateTo 180 initial =
    (tt, {| rotationAngleDegree := 180;
            pwm := {[ ROTATE_SERVO_CHANNEL := (0, ROTATE_SERVO_180) ]};
            trace := [SetPWM ROTATE_SERVO_CHANNEL 0 ROTATE_SERVO_180;
                      Delay (2 * ROTATE_DELAY_MS)] |}).
Proof. reflexivity. Qed.

(** C5. A target outside {0, 90, 180, 270} is dropped: the object and the
    board registers are as before, nothing is written, nothing is waited. *)
Theorem rotateTo_invalid_noop v s :
  ¬ valid_angle v →
  rotateTo v s = (tt, s) ∧
  issued (rotateTo v) s = [] ∧
  waited (rotateTo v) s = 0.
Proof.
  intros Hv. apply angle_guard_invalid in Hv.
  assert (issued (rotateTo v) s = []) as Hi.
  { apply issued_app. unfold exec. rewrite rotateTo_rejected by done.
    simpl. by rewrite app_nil_r. }
  split; [by apply rotateTo_rejected|].
  split; [done|]. unfold waited. by rewrite Hi.
Qed.

Lemma rotateTo_invalid_noop_witness :
  ¬ valid_angle 45 ∧
  rotateTo 45 initial = (tt, initial) ∧
  issued (rotateTo 45) initial = [] ∧
  waited (rotateTo 45) initial = 0.
Proof.
  split; [unfold valid_angle; lia|].
  apply (rotateTo_invalid_noop 45 initial). unfold valid_angle; lia.
Defined.

(** C6. A second [rotateTo x] right after the first finds a step count of 0,
    writes the tick of [x] to the rotate channel again, waits 0 ms, and
    leaves the tracked angle and the channel registers as they were. *)
Theorem rotateTo_twice x s :
  valid_angle x →
  let s1 := exec (rotateTo x) s in
  ∃ tick,
    calibrated_tick x = Some tick ∧
    rotationAngleDegree s1 = x ∧
    pwm s1 !! ROTATE_SERVO_CHANNEL = Some (0, tick) ∧
    numberSteps90 (rotationAngleDegree s1) x = 0 ∧
    rotateTo x s1 =
      (tt, {| rotationAngleDegree := x;
              pwm := pwm s1;
              trace := trace s1 ++
                [SetPWM ROTATE_SERVO_CHANNEL 0 tick; Delay 0] |}).
Proof.
  intros Hx s1. eexists. split; [by apply pcaTicks_valid|].
  assert (rotationAngleDegree s1 = x) as Ha.
  { subst s1. by rewrite exec_rotateTo_accepted. }
  assert (numberSteps90 x x = 0) as H0.
  { clear -Hx. valid_cases Hx; reflexivity. }
  split; [done|]. split.
  { subst s1. rewrite exec_rotateTo_accepted by done. simpl.
    apply lookup_insert_eq. }
  split; [by rewrite Ha|].
  rewrite rotateTo_accepted by (by apply angle_guard_valid).
  rewrite Ha, H0. f_equal. f_equal.
  subst s1. rewrite exec_rotateTo_accepted by done. simpl.
  apply insert_insert_eq.
Qed.

Lemma rotateTo_twice_witness :
  valid_angle 90 ∧
  let s1 := exec (rotateTo 90) initial in
  ∃ tick,
    calibrated_tick 90 = Some tick ∧
    rotationAngleDegree s1 = 90 ∧
    pwm s1 !! ROTATE_SERVO_CHANNEL = Some (0, tick) ∧
    numberSteps90 (rotationAngleDegree s1) 90 = 0 ∧
    rotateTo 90 s1 =
      (tt, {| rotationAngleDegree := 90;
              pwm := pwm s1;
              trace := trace s1 ++
                [SetPWM ROTATE_SERVO_CHANNEL 0 tick; Delay 0] |}).
Proof.
  split; [unfold valid_angle; lia|].
  apply (rotateTo_twice 90 initial). unfold valid_angle; lia.
Defined.

(** ** rotateLeft, rotateRight *)

(** C2. From the initial object, after every call of any sequence of
    [rotateLeft], [rotateRight] and [rotateTo v] (any integer [v]), the
    tracked angle is one of 0, 90, 180, 270. *)
Theorem rotation_angle_invariant (calls : list call) :
  Forall valid_angle (angles_after calls initial).
Proof.
  apply angles_after_valid. unfold valid_angle. by left.
Qed.

(** C3, as the code has it. At 270, [rotateRight] goes through [rotateTo 0]:
    it writes the 0-degree tick, waits three step units and tracks 0. *)
Theorem rotateRight_from_270 s :
  rotationAngleDegree s = 270 →
  rotateRight s =
    (tt, {| rotationAngleDegree := 0;
            pwm := <[ROTATE_SERVO_CHANNEL := (0, ROTATE_SERVO_0)]> (pwm s);
            trace := trace s ++
              [SetPWM ROTATE_SERVO_CHANNEL 0 ROTATE_SERVO_0;
               Delay (3 * ROTATE_DELAY_MS)] |}) ∧
  waited rotateRight s = 3 * ROTATE_DELAY_MS.
Proof.
  intros Ha.
  assert (rotateRight s =
    (tt, {| rotationAngleDegree := 0;
            pwm := <[ROTATE_SERVO_CHANNEL := (0, ROTATE_SERVO_0)]> (pwm s);
            trace := trace s ++
              [SetPWM ROTATE_SERVO_CHANNEL 0 ROTATE_SERVO_0;
               Delay (3 * ROTATE_DELAY_MS)] |})) as Hrun.
  { unfold rotateRight. run_cmd. fold (rotationAngleDegree s).
    rewrite Ha. simpl. rewrite rotateTo_accepted by done. by rewrite Ha. }
  split; [exact Hrun|].
  unfold waited. erewrite issued_app; [|unfold exec; by rewrite Hrun].
  reflexivity.
Qed.

Lemma rotateRight_from_270_witness :
  rotationAngleDegree (mkState 270 ∅ []) = 270 ∧
  rotateRight (mkState 270 ∅ []) =
    (tt, {| rotationAngleDegree := 0;
            pwm := <[ROTATE_SERVO_CHANNEL := (0, ROTATE_SERVO_0)]> ∅;
            trace := [] ++
              [SetPWM ROTATE_SERVO_CHANNEL 0 ROTATE_SERVO_0;
               Delay (3 * ROTATE_DELAY_MS)] |}) ∧
  waited rotateRight (mkState 270 ∅ []) = 3 * ROTATE_DELAY_MS.
Proof.
  split; [reflexivity|].
  apply (rotateRight_from_270 (mkState 270 ∅ [])). reflexivity.
Defined.

(** C3, as the claim words it, fails at the state reached by three right
    turns from the initial object: the tracked angle is 270, the next
    [rotateRight] tracks 0, but it waits 1950 ms, three step units, not one. *)
Lemma wraparound_right_single_step_refuted :
  let s := exec (rotateRight ;; rotateRight ;; rotateRight) initial in
  rotationAngleDegree s = 270 ∧
  rotationAngleDegree (exec rotateRight s) = 0 ∧
  waited rotateRight s = 1950 ∧
  waited rotateRight s ≠ 1 * ROTATE_DELAY_MS.
Proof.
  cbv zeta. split; [reflexivity|]. split; [reflexivity|].
  assert (waited rotateRight
            (exec (rotateRight ;; rotateRight ;; rotateRight) initial) = 1950)
    as Hw by (vm_compute; reflexivity).
  split; [exact Hw|]. rewrite Hw. discriminate.
Qed.

(** C4. At 0, [rotateLeft] goes through [rotateTo 270]: 270-degree tick,
    three step units of wait, tracked angle 270.  At a stop above 0 the
    tracked angle goes down by 90. *)
Theorem rotateLeft_steps s :
  valid_angle (rotationAngleDegree s) →
  (rotationAngleDegree s = 0 →
     rotateLeft s =
       (tt, {| rotationAngleDegree := 270;
               pwm := <[ROTATE_SERVO_CHANNEL := (0, ROTATE_SERVO_270)]> (pwm s);
               trace := trace s ++
                 [SetPWM ROTATE_SERVO_CHANNEL 0 ROTATE_SERVO_270;
                  Delay (3 * ROTATE_DELAY_MS)] |}) ∧
     waited rotateLeft s = 3 * ROTATE_DELAY_MS) ∧
  (0 < rotationAngleDegree s →
     rotationAngleDegree (exec rotateLeft s) = rotationAngleDegree s - 90).
Proof.
  intros Hs. split.
  - intros Ha.
    assert (rotateLeft s =
      (tt, {| rotationAngleDegree := 270;
              pwm := <[ROTATE_SERVO_CHANNEL := (0, ROTATE_SERVO_270)]> (pwm s);
              trace := trace s ++
                [SetPWM ROTATE_SERVO_CHANNEL 0 ROTATE_SERVO_270;
                 Delay (3 * ROTATE_DELAY_MS)] |})) as Hrun.
    { unfold rotateLeft. run_cmd. fold (rotationAngleDegree s).
      rewrite Ha. simpl. rewrite rotateTo_accepted by done. by rewrite Ha. }
    split; [exact Hrun|].
    unfold waited. erewrite issued_app; [|unfold exec; by rewrite Hrun].
    reflexivity.
  - intros Hpos. destruct s as [a p tr]. simpl in Hs, Hpos.
    valid_cases Hs; [lia| | |]; reflexivity.
Qed.

Lemma rotateLeft_steps_witness :
  (valid_angle (rotationAngleDegree initial) ∧
   rotateLeft initial =
     (tt, {| rotationAngleDegree := 270;
             pwm := <[ROTATE_SERVO_CHANNEL := (0, ROTATE_SERVO_270)]>
                      (pwm initial);
             trace := trace initial ++
               [SetPWM ROTATE_SERVO_CHANNEL 0 ROTATE_SERVO_270;
                Delay (3 * ROTATE_DELAY_MS)] |}) ∧
   waited rotateLeft initial = 3 * ROTATE_DELAY_MS) ∧
  (valid_angle (rotationAngleDegree (mkState 180 ∅ [])) ∧
   0 < rotationAngleDegree (mkState 180 ∅ []) ∧
   rotationAngleDegree (exec rotateLeft (mkState 180 ∅ []))
   = rotationAngleDegree (mkState 180 ∅ []) - 90).
Proof.
  split.
  - split; [unfold valid_angle; simpl; lia|].
    apply (rotateLeft_steps initial); [unfold valid_angle; simpl; lia|].
    reflexivity.
  - split; [unfold valid_angle; simpl; lia|].
    split; [simpl; lia|].
    apply (rotateLeft_steps (mkState 180 ∅ []));
      [unfold valid_angle; simpl; lia | simpl; lia].
Defined.

(** C10. On a valid tracked angle, [rotateRight] then [rotateLeft] gives the
    angle back, and so does [rotateLeft] then [rotateRight], also across
    the step between 270 and 0. *)
Theorem rotateLeft_rotateRight_inverse s :
  valid_angle (rotationAngleDegree s) →
  rotationAngleDegree (exec rotateLeft (exec rotateRight s))
    = rotationAngleDegree s ∧
  rotationAngleDegree (exec rotateRight (exec rotateLeft s))
    = rotationAngleDegree s.
Proof.
  intros Hs. destruct s as [a p tr]. simpl in Hs.
  valid_cases Hs; split; reflexivity.
Qed.

Lemma rotateLeft_rotateRight_inverse_witness :
  valid_angle (rotationAngleDegree (mkState 270 ∅ [])) ∧
  rotationAngleDegree
    (exec rotateLeft (exec rotateRight (mkState 270 ∅ []))) = 270 ∧
  rotationAngleDegree
    (exec rotateRight (exec rotateLeft (mkState 270 ∅ []))) = 270.
Proof.
  split; [unfold valid_angle; simpl; lia|].
  apply (rotateLeft_rotateRight_inverse (mkState 270 ∅ [])).
  unfold valid_angle; simpl; lia.
Defined.

(** ** initPositions, turnCube *)

(** C7. From any object, [initPositions] writes the holding tick to the turn
    channel and waits [TURN_DELAY_MS], then does what [rotateTo 0] does at
    that point, then waits a further [2 * ROTATE_DELAY_MS]; afterwards the
    tracked angle is 0, the turn channel carries the holding tick and the
    rotate channel the 0-degree tick. *)
Theorem initPositions_homes s :
  let s1 :=
    exec (setPWM TURN_SERVO_CHANNEL 0 TURN_SERVO_MIN;; delay TURN_DELAY_MS) s in
  trace s1 = trace s ++
    [SetPWM TURN_SERVO_CHANNEL 0 TURN_SERVO_MIN; Delay TURN_DELAY_MS] ∧
  issued (rotateTo 0) s1 =
    [SetPWM ROTATE_SERVO_CHANNEL 0 ROTATE_SERVO_0;
     Delay (to_ulong (int_mul (numberSteps90 (rotationAngleDegree s) 0)
                        ROTATE_DELAY_MS))] ∧
  initPositions s =
    (tt, {| rotationAngleDegree := 0;
            pwm := <[ROTATE_SERVO_CHANNEL := (0, ROTATE_SERVO_0)]>
                     (<[TURN_SERVO_CHANNEL := (0, TURN_SERVO_MIN)]> (pwm s));
            trace := trace s1 ++ issued (rotateTo 0) s1 ++
                     [Delay (2 * ROTATE_DELAY_MS)] |}) ∧
  rotationAngleDegree (exec initPositions s) = 0 ∧
  pwm (exec initPositions s) !! TURN_SERVO_CHANNEL = Some (0, TURN_SERVO_MIN).
Proof.
  intros s1.
  assert (s1 = {| rotationAngleDegree := rotationAngleDegree s;
                  pwm := <[TURN_SERVO_CHANNEL := (0, TURN_SERVO_MIN)]> (pwm s);
                  trace := trace s ++
                    [SetPWM TURN_SERVO_CHANNEL 0 TURN_SERVO_MIN;
                     Delay TURN_DELAY_MS] |}) as Hs1.
  { subst s1. run_cmd. by rewrite <- app_assoc. }
  assert (initPositions s =
    (tt, {| rotationAngleDegree := 0;
            pwm := <[ROTATE_SERVO_CHANNEL := (0, ROTATE_SERVO_0)]>
                     (<[TURN_SERVO_CHANNEL := (0, TURN_SERVO_MIN)]> (pwm s));
            trace := trace s1 ++ issued (rotateTo 0) s1 ++
                     [Delay (2 * ROTATE_DELAY_MS)] |})) as Hrun.
  { rewrite issued_rotateTo_accepted by (by left). rewrite Hs1.
    unfold initPositions. run_cmd.
    rewrite rotateTo_accepted by done.
    simpl. by rewrite <- !app_assoc. }
  split; [by rewrite Hs1|].
  split; [rewrite issued_rotateTo_accepted by (by left); by rewrite Hs1|].
  split; [exact Hrun|]. unfold exec. rewrite Hrun. simpl.
  split; [done|].
  rewrite lookup_insert_ne by done. apply lookup_insert_eq.
Qed.

(** C8. From any object, [turnCube] writes the push tick to the turn channel,
    waits [TURN_DELAY_MS], writes the holding tick, waits [TURN_DELAY_MS];
    the tracked angle and the rotate channel are not touched. *)
Theorem turnCube_frame s :
  turnCube s =
    (tt, {| rotationAngleDegree := rotationAngleDegree s;
            pwm := <[TURN_SERVO_CHANNEL := (0, TURN_SERVO_MIN)]> (pwm s);
            trace := trace s ++
              [SetPWM TURN_SERVO_CHANNEL 0 TURN_SERVO_MAX;
               Delay TURN_DELAY_MS;
               SetPWM TURN_SERVO_CHANNEL 0 TURN_SERVO_MIN;
               Delay TURN_DELAY_MS] |}) ∧
  rotationAngleDegree (exec turnCube s) = rotationAngleDegree s ∧
  forallb (λ e, negb (writes_channel ROTATE_SERVO_CHANNEL e))
    (issued turnCube s) = true ∧
  pwm (exec turnCube s) !! ROTATE_SERVO_CHANNEL
    = pwm s !! ROTATE_SERVO_CHANNEL.
Proof.
  assert (turnCube s =
    (tt, {| rotationAngleDegree := rotationAngleDegree s;
            pwm := <[TURN_SERVO_CHANNEL := (0, TURN_SERVO_MIN)]> (pwm s);
            trace := trace s ++
              [SetPWM TURN_SERVO_CHANNEL 0 TURN_SERVO_MAX;
               Delay TURN_DELAY_MS;
               SetPWM TURN_SERVO_CHANNEL 0 TURN_SERVO_MIN;
               Delay TURN_DELAY_MS] |})) as Hrun.
  { unfold turnCube. run_cmd. destruct s as [a p tr].
    rewrite <- !app_assoc. simpl. f_equal. f_equal.
    apply insert_insert_eq. }
  split; [exact Hrun|].
  split; [unfold exec; by rewrite Hrun|].
  split.
  - erewrite issued_app; [|unfold exec; by rewrite Hrun]. reflexivity.
  - unfold exec. rewrite Hrun. simpl. by rewrite lookup_insert_ne.
Qed.

(** ** Calibration constants *)

(** C9. The four rotation ticks grow strictly from the 0-degree stop to the
    270-degree stop (so no two coincide), and every configured tick, turn
    and rotation alike, lies in 0..4095. *)
Theorem calibration_table_invariant :
  strictly_increasing rotationTicks ∧
  NoDup rotationTicks ∧
  Forall tick_in_range (TURN_SERVO_MIN :: TURN_SERVO_MAX :: rotationTicks).
Proof.
  split; [|split].
  - simpl. unfold ROTATE_SERVO_0, ROTATE_SERVO_90, ROTATE_SERVO_180,
      ROTATE_SERVO_270. lia.
  - compute_done.
  - repeat constructor; by vm_compute.
Qed.

(** ** Composition of methods *)

Lemma exec_seq (c1 c2 : Cmd unit) s :
  exec (c1;; c2) s = exec c2 (exec c1 s).
Proof. unfold exec, mbind, Cmd_bind. by destruct (c1 s) as [[] s1]. Qed.

Lemma waited_seq (c1 c2 : Cmd unit) s evs1 evs2 :
  trace (exec c1 s) = trace s ++ evs1 →
  trace (exec c2 (exec c1 s)) = trace (exec c1 s) ++ evs2 →
  waited (c1;; c2) s = waited c1 s + waited c2 (exec c1 s).
Proof.
  intros H1 H2. unfold waited.
  rewrite (issued_app c1 s evs1 H1), (issued_app c2 _ evs2 H2).
  rewrite (issued_app (c1;; c2) s (evs1 ++ evs2)).
  - apply wait_ms_app.
  - by rewrite exec_seq, H2, H1, app_assoc.
Qed.

Lemma rotateRight_as_rotateTo s :
  rotateRight s =
    if rotationAngleDegree s <? 270
    then rotateTo (int_add (rotationAngleDegree s) 90) s
    else rotateTo 0 s.
Proof.
  unfold rotateRight. run_cmd. fold (rotationAngleDegree s).
  by destruct (rotationAngleDegree s <? 270).
Qed.

Lemma rotateLeft_as_rotateTo s :
  rotateLeft s =
    if 0 <? rotationAngleDegree s
    then rotateTo (int_sub (rotationAngleDegree s) 90) s
    else rotateTo 270 s.
Proof.
  unfold rotateLeft. run_cmd. fold (rotationAngleDegree s).
  by destruct (0 <? rotationAngleDegree s).
Qed.

(** On a valid angle both turns are a [rotateTo] to the neighbour on the
    circle. *)
Lemma rotateRight_valid s :
  valid_angle (rotationAngleDegree s) →
  rotateRight s = rotateTo ((rotationAngleDegree s + 90) mod 360) s.
Proof.
  intros H. rewrite rotateRight_as_rotateTo. valid_cases H; reflexivity.
Qed.

Lemma rotateLeft_valid s :
  valid_angle (rotationAngleDegree s) →
  rotateLeft s = rotateTo ((rotationAngleDegree s - 90) mod 360) s.
Proof.
  intros H. rewrite rotateLeft_as_rotateTo. valid_cases H; reflexivity.
Qed.

Lemma neighbour_right_valid a : valid_angle a → valid_angle ((a + 90) mod 360).
Proof. intros H. valid_cases H; unfold valid_angle; vm_compute; tauto. Qed.

Lemma neighbour_left_valid a : valid_angle a → valid_angle ((a - 90) mod 360).
Proof. intros H. valid_cases H; unfold valid_angle; vm_compute; tauto. Qed.

Lemma waited_rotateTo_valid t s :
  valid_angle t → valid_angle (rotationAngleDegree s) →
  waited (rotateTo t) s
  = Z.abs (rotationAngleDegree s - t) / 90 * ROTATE_DELAY_MS.
Proof.
  intros Ht Hs. unfold waited. rewrite issued_rotateTo_accepted by done.
  simpl. rewrite rotate_delay_valid by done. lia.
Qed.

Lemma turnCube_run s :
  exec turnCube s =
    {| rotationAngleDegree := rotationAngleDegree s;
       pwm := <[TURN_SERVO_CHANNEL := (0, TURN_SERVO_MIN)]> (pwm s);
       trace := trace s ++
         [SetPWM TURN_SERVO_CHANNEL 0 TURN_SERVO_MAX; Delay TURN_DELAY_MS;
          SetPWM TURN_SERVO_CHANNEL 0 TURN_SERVO_MIN; Delay TURN_DELAY_MS] |}.
Proof.
  unfold turnCube. run_cmd. destruct s as [a p tr].
  rewrite <- !app_assoc. simpl. f_equal. apply insert_insert_eq.
Qed.

Lemma initPositions_run s :
  exec initPositions s =
    {| rotationAngleDegree := 0;
       pwm := <[ROTATE_SERVO_CHANNEL := (0, ROTATE_SERVO_0)]>
                (<[TURN_SERVO_CHANNEL := (0, TURN_SERVO_MIN)]> (pwm s));
       trace := trace s ++
         [SetPWM TURN_SERVO_CHANNEL 0 TURN_SERVO_MIN; Delay TURN_DELAY_MS;
          SetPWM ROTATE_SERVO_CHANNEL 0 ROTATE_SERVO_0;
          Delay (to_ulong (int_mul (numberSteps90 (rotationAngleDegree s) 0)
                             ROTATE_DELAY_MS));
          Delay (2 * ROTATE_DELAY_MS)] |}.
Proof.
  unfold initPositions. run_cmd. rewrite rotateTo_accepted by done.
  simpl. by rewrite <- !app_assoc.
Qed.

Lemma perform_as_rotateTo c s :
  ∃ v, ∀ s', rotationAngleDegree s' = rotationAngleDegree s →
             perform c s' = rotateTo v s'.
Proof.
  destruct c as [| |v]; simpl.
  - destruct (0 <? rotationAngleDegree s) eqn:E; eexists; intros s' Hs';
      by rewrite rotateLeft_as_rotateTo, Hs', E.
  - destruct (rotationAngleDegree s <? 270) eqn:E; eexists; intros s' Hs';
      by rewrite rotateRight_as_rotateTo, Hs', E.
  - by exists v.
Qed.

Lemma exec_rotateTo_rejected v s :
  angle_guard v = false → exec (rotateTo v) s = s.
Proof. intros H. unfold exec. by rewrite rotateTo_rejected. Qed.

Lemma pcaTicks_in_table t :
  valid_angle t →
  to_uint16 (rotationTicks_at (int_div t 90)) ∈ rotationTicks.
Proof.
  intros H.
  valid_cases H;
    [ apply (list_elem_of_lookup_2 _ 0%nat) | apply (list_elem_of_lookup_2 _ 1%nat)
    | apply (list_elem_of_lookup_2 _ 2%nat) | apply (list_elem_of_lookup_2 _ 3%nat) ];
    reflexivity.
Qed.

Lemma rotateTo_appends v s :
  ∃ evs, trace (exec (rotateTo v) s) = trace s ++ evs ∧
         Forall calibrated_write evs.
Proof.
  destruct (angle_guard v) eqn:E.
  - apply angle_guard_valid in E. rewrite exec_rotateTo_accepted by done.
    eexists. split; [reflexivity|].
    constructor; [|constructor; [exact I | constructor]].
    split; [done|]. right. split; [done|]. by apply pcaTicks_in_table.
  - rewrite exec_rotateTo_rejected by done.
    exists []. by rewrite app_nil_r.
Qed.

Lemma invoke_appends m s :
  ∃ evs, trace (exec (invoke m) s) = trace s ++ evs ∧
         Forall calibrated_write evs.
Proof.
  destruct m as [c| |]; cbn [invoke].
  - destruct (perform_as_rotateTo c s) as [v Hv].
    unfold exec. rewrite Hv by done. apply rotateTo_appends.
  - rewrite initPositions_run. eexists. split; [reflexivity|].
    constructor; [|constructor; [exact I|]].
    { split; [done|]. left. split; [done|]. by left. }
    constructor; [|by repeat constructor].
    split; [done|]. right. split; [done|]. by apply list_elem_of_here.
  - rewrite turnCube_run. eexists. split; [reflexivity|].
    constructor; [|constructor; [exact I|]].
    { split; [done|]. left. split; [done|]. by right. }
    constructor; [|by repeat constructor].
    split; [done|]. left. split; [done|]. by left.
Qed.

Lemma invoke_all_appends ms :
  ∀ s, ∃ evs, trace (exec (invoke_all ms) s) = trace s ++ evs ∧
              Forall calibrated_write evs.
Proof.
  induction ms as [|m ms IH]; intros s.
  - exists []. by rewrite app_nil_r.
  - simpl invoke_all. rewrite exec_seq.
    destruct (invoke_appends m s) as (evs1 & H1 & F1).
    destruct (IH (exec (invoke m) s)) as (evs2 & H2 & F2).
    exists (evs1 ++ evs2). split.
    + by rewrite H2, H1, app_assoc.
    + by apply Forall_app.
Qed.

Lemma rotateTo_homed v s : homed s → homed (exec (rotateTo v) s).
Proof.
  intros [Hrot Hturn]. destruct (angle_guard v) eqn:E.
  - apply angle_guard_valid in E. rewrite exec_rotateTo_accepted by done.
    split; simpl.
    + eexists. split; [by apply pcaTicks_valid | apply lookup_insert_eq].
    + by rewrite lookup_insert_ne.
  - by rewrite exec_rotateTo_rejected.
Qed.

Lemma invoke_homed m s : homed s → homed (exec (invoke m) s).
Proof.
  intros Hs. destruct m as [c| |]; cbn [invoke].
  - destruct (perform_as_rotateTo c s) as [v Hv].
    unfold exec. rewrite Hv by done. by apply rotateTo_homed.
  - rewrite initPositions_run. split; simpl.
    + eexists. split; [reflexivity | apply lookup_insert_eq].
    + rewrite lookup_insert_ne by done. apply lookup_insert_eq.
  - destruct Hs as [Hrot Hturn]. rewrite turnCube_run. split; simpl.
    + by rewrite lookup_insert_ne.
    + apply lookup_insert_eq.
Qed.

(** ** Properties of the sequencer beyond single calls *)

(** X1. Once [initPositions] has run, from whatever state, every later
    sequence of methods leaves the board and the object in step: the rotate
    channel carries the tick of the tracked angle and the turn channel the
    holding tick. *)
Theorem homed_after_initPositions s (ms : list method) :
  homed (exec (invoke_all ms) (exec initPositions s)).
Proof.
  assert (homed (exec initPositions s)) as H0.
  { rewrite initPositions_run. split; simpl.
    - eexists. split; [reflexivity | apply lookup_insert_eq].
    - rewrite lookup_insert_ne by done. apply lookup_insert_eq. }
  revert H0. generalize (exec initPositions s). clear s.
  induction ms as [|m ms IH]; intros s Hs.
  - exact Hs.
  - simpl invoke_all. rewrite exec_seq. apply IH. by apply invoke_homed.
Qed.

(** X2. Whatever methods are called, in whatever order and from whatever
    state, every board write goes to the turn or the rotate channel, switches
    on at tick 0, and switches off at a tick configured for that channel. *)
Theorem writes_are_calibrated s (ms : list method) :
  Forall calibrated_write (issued (invoke_all ms) s).
Proof.
  destruct (invoke_all_appends ms s) as (evs & He & Hf).
  by rewrite (issued_app _ _ _ He).
Qed.

(** X3. From a valid tracked angle a rotation call blocks for a whole number
    of rotation steps, never more than three. *)
Theorem rotation_wait_bounded c s :
  valid_angle (rotationAngleDegree s) →
  ∃ k, 0 ≤ k ≤ 3 ∧ waited (perform c) s = k * ROTATE_DELAY_MS.
Proof.
  intros Hs.
  assert (∀ v, ∃ k, 0 ≤ k ≤ 3 ∧ waited (rotateTo v) s = k * ROTATE_DELAY_MS)
    as Hto.
  { intros v. destruct (angle_guard v) eqn:E.
    - apply angle_guard_valid in E.
      exists (Z.abs (rotationAngleDegree s - v) / 90).
      split; [|by apply waited_rotateTo_valid].
      valid_cases Hs; valid_cases E; by vm_compute.
    - exists 0. split; [lia|]. unfold waited.
      rewrite (issued_app _ _ []); [done|].
      by rewrite exec_rotateTo_rejected, app_nil_r. }
  destruct c as [| |v]; cbn [perform].
  - unfold waited, issued, exec. rewrite rotateLeft_valid by done. apply Hto.
  - unfold waited, issued, exec. rewrite rotateRight_valid by done. apply Hto.
  - apply Hto.
Qed.

Lemma rotation_wait_bounded_witness :
  valid_angle (rotationAngleDegree initial) ∧
  ∃ k, 0 ≤ k ≤ 3 ∧ waited (perform RotateLeft) initial = k * ROTATE_DELAY_MS.
Proof.
  split; [unfold valid_angle; simpl; lia|].
  apply (rotation_wait_bounded RotateLeft initial).
  unfold valid_angle; simpl; lia.
Defined.

(** X4. From a valid tracked angle [a], [rotateRight] moves to the next stop
    on the circle, [(a + 90) mod 360], writes that stop's tick, and waits one
    rotation step, or three when it goes from 270 back to 0. *)
Theorem rotateRight_valid_step s :
  valid_angle (rotationAngleDegree s) →
  ∃ tick,
    calibrated_tick ((rotationAngleDegree s + 90) mod 360) = Some tick ∧
    rotateRight s =
      (tt, {| rotationAngleDegree := (rotationAngleDegree s + 90) mod 360;
              pwm := <[ROTATE_SERVO_CHANNEL := (0, tick)]> (pwm s);
              trace := trace s ++
                [SetPWM ROTATE_SERVO_CHANNEL 0 tick;
                 Delay ((if rotationAngleDegree s =? 270 then 3 else 1)
                        * ROTATE_DELAY_MS)] |}).
Proof.
  intros Hs. eexists. split.
  - apply pcaTicks_valid. by apply neighbour_right_valid.
  - rewrite rotateRight_valid by done.
    rewrite rotateTo_accepted
      by (apply angle_guard_valid; by apply neighbour_right_valid).
    valid_cases Hs; reflexivity.
Qed.

Lemma rotateRight_valid_step_witness :
  valid_angle (rotationAngleDegree (mkState 90 ∅ [])) ∧
  ∃ tick,
    calibrated_tick ((rotationAngleDegree (mkState 90 ∅ []) + 90) mod 360)
      = Some tick ∧
    rotateRight (mkState 90 ∅ []) =
      (tt, {| rotationAngleDegree :=
                (rotationAngleDegree (mkState 90 ∅ []) + 90) mod 360;
              pwm := <[ROTATE_SERVO_CHANNEL := (0, tick)]>
                       (pwm (mkState 90 ∅ []));
              trace := trace (mkState 90 ∅ []) ++
                [SetPWM ROTATE_SERVO_CHANNEL 0 tick;
                 Delay ((if rotationAngleDegree (mkState 90 ∅ []) =? 270
                         then 3 else 1) * ROTATE_DELAY_MS)] |}).
Proof.
  split; [unfold valid_angle; simpl; lia|].
  apply (rotateRight_valid_step (mkState 90 ∅ [])).
  unfold valid_angle; simpl; lia.
Defined.

(** X5. From a valid tracked angle [a], [rotateLeft] moves to the previous
    stop on the circle, [(a - 90) mod 360], writes that stop's tick, and
    waits one rotation step, or three when it goes from 0 to 270. *)
Theorem rotateLeft_valid_step s :
  valid_angle (rotationAngleDegree s) →
  ∃ tick,
    calibrated_tick ((rotationAngleDegree s - 90) mod 360) = Some tick ∧
    rotateLeft s =
      (tt, {| rotationAngleDegree := (rotationAngleDegree s - 90) mod 360;
              pwm := <[ROTATE_SERVO_CHANNEL := (0, tick)]> (pwm s);
              trace := trace s ++
                [SetPWM ROTATE_SERVO_CHANNEL 0 tick;
                 Delay ((if rotationAngleDegree s =? 0 then 3 else 1)
                        * ROTATE_DELAY_MS)] |}).
Proof.
  intros Hs. eexists. split.
  - apply pcaTicks_valid. by apply neighbour_left_valid.
  - rewrite rotateLeft_valid by done.
    rewrite rotateTo_accepted
      by (apply angle_guard_valid; by apply neighbour_left_valid).
    valid_cases Hs; reflexivity.
Qed.

Lemma rotateLeft_valid_step_witness :
  valid_angle (rotationAngleDegree (mkState 180 ∅ [])) ∧
  ∃ tick,
    calibrated_tick ((rotationAngleDegree (mkState 180 ∅ []) - 90) mod 360)
      = Some tick ∧
    rotateLeft (mkState 180 ∅ []) =
      (tt, {| rotationAngleDegree :=
                (rotationAngleDegree (mkState 180 ∅ []) - 90) mod 360;
              pwm := <[ROTATE_SERVO_CHANNEL := (0, tick)]>
                       (pwm (mkState 180 ∅ []));
              trace := trace (mkState 180 ∅ []) ++
                [SetPWM ROTATE_SERVO_CHANNEL 0 tick;
                 Delay ((if rotationAngleDegree (mkState 180 ∅ []) =? 0
                         then 3 else 1) * ROTATE_DELAY_MS)] |}).
Proof.
  split; [unfold valid_angle; simpl; lia|].
  apply (rotateLeft_valid_step (mkState 180 ∅ [])).
  unfold valid_angle; simpl; lia.
Defined.

Lemma exec_rotateRight_valid s :
  valid_angle (rotationAngleDegree s) →
  exec rotateRight s =
    exec (rotateTo ((rotationAngleDegree s + 90) mod 360)) s.
Proof. intros H. unfold exec. by rewrite rotateRight_valid. Qed.

Lemma exec_rotateLeft_valid s :
  valid_angle (rotationAngleDegree s) →
  exec rotateLeft s =
    exec (rotateTo ((rotationAngleDegree s - 90) mod 360)) s.
Proof. intros H. unfold exec. by rewrite rotateLeft_valid. Qed.

Lemma exec_perform_as_rotateTo c s :
  ∃ v, ∀ s', rotationAngleDegree s' = rotationAngleDegree s →
             exec (perform c) s' = exec (rotateTo v) s'.
Proof.
  destruct (perform_as_rotateTo c s) as [v Hv].
  exists v. intros s' Hs'. unfold exec. by rewrite Hv.
Qed.

(** Run [n] quarter turns one after the other and normalise the result. *)
Tactic Notation "quarter_turns" integer(n) constr(lem) :=
  cbn [invoke_all replicate invoke perform];
  rewrite !exec_seq;
  do n (rewrite (lem (mkState _ _ _)) by (by apply angle_guard_valid);
        rewrite (exec_rotateTo_accepted _ (mkState _ _ _))
          by (by apply angle_guard_valid)).

(** X6. Four right turns, or four left turns, from a valid tracked angle
    bring the angle back to where it was, and either way the four calls
    together block for six rotation steps: three single steps and the long
    way back between 270 and 0. *)
Theorem four_turns_full_circle s :
  valid_angle (rotationAngleDegree s) →
  let right4 := invoke_all (replicate 4 (Rotation RotateRight)) in
  let left4 := invoke_all (replicate 4 (Rotation RotateLeft)) in
  rotationAngleDegree (exec right4 s) = rotationAngleDegree s ∧
  waited right4 s = 6 * ROTATE_DELAY_MS ∧
  rotationAngleDegree (exec left4 s) = rotationAngleDegree s ∧
  waited left4 s = 6 * ROTATE_DELAY_MS.
Proof.
  intros Hs right4 left4. subst right4 left4.
  destruct s as [a p tr]. simpl in Hs.
  unfold waited, issued.
  assert (∀ e1 e2 e3 e4 e5 e6 e7 e8 : event,
    drop (length tr)
      ((((tr ++ [e1; e2]) ++ [e3; e4]) ++ [e5; e6]) ++ [e7; e8])
    = [e1; e2; e3; e4; e5; e6; e7; e8]) as Hdrop.
  { intros. rewrite <- !app_assoc. apply drop_app_length. }
  valid_cases Hs; repeat split.
  all: try (quarter_turns 4 exec_rotateRight_valid; simpl;
            first [reflexivity | by rewrite Hdrop]).
  all: quarter_turns 4 exec_rotateLeft_valid; simpl;
       first [reflexivity | by rewrite Hdrop].
Qed.

Lemma four_turns_full_circle_witness :
  valid_angle (rotationAngleDegree initial) ∧
  rotationAngleDegree
    (exec (invoke_all (replicate 4 (Rotation RotateRight))) initial) = 0 ∧
  waited (invoke_all (replicate 4 (Rotation RotateRight))) initial
    = 6 * ROTATE_DELAY_MS ∧
  rotationAngleDegree
    (exec (invoke_all (replicate 4 (Rotation RotateLeft))) initial) = 0 ∧
  waited (invoke_all (replicate 4 (Rotation RotateLeft))) initial
    = 6 * ROTATE_DELAY_MS.
Proof.
  split; [unfold valid_angle; simpl; lia|].
  apply (four_turns_full_circle initial). unfold valid_angle; simpl; lia.
Defined.

(** X7. Between valid angles, going to [t2] directly never blocks longer
    than going to [t1] first and to [t2] from there, and both ways end at
    the same angle with the same channel registers. *)
Theorem rotateTo_direct_is_shortest s t1 t2 :
  valid_angle (rotationAngleDegree s) → valid_angle t1 → valid_angle t2 →
  waited (rotateTo t2) s ≤ waited (rotateTo t1;; rotateTo t2) s ∧
  same_position (exec (rotateTo t2) s) (exec (rotateTo t1;; rotateTo t2) s).
Proof.
  intros Hs H1 H2. split.
  - erewrite waited_seq;
      [| by rewrite exec_rotateTo_accepted
       | by rewrite (exec_rotateTo_accepted t2)].
    rewrite !waited_rotateTo_valid; try done;
      rewrite ?exec_rotateTo_accepted by done; simpl; try done.
    valid_cases Hs; valid_cases H1; valid_cases H2; by vm_compute.
  - rewrite exec_seq, !exec_rotateTo_accepted by done.
    split; simpl; [done|]. by rewrite insert_insert_eq.
Qed.

Lemma rotateTo_direct_is_shortest_witness :
  valid_angle (rotationAngleDegree initial) ∧ valid_angle 270 ∧
  valid_angle 90 ∧
  waited (rotateTo 90) initial ≤ waited (rotateTo 270;; rotateTo 90) initial ∧
  same_position (exec (rotateTo 90) initial)
    (exec (rotateTo 270;; rotateTo 90) initial).
Proof.
  split; [unfold valid_angle; simpl; lia|].
  split; [unfold valid_angle; lia|].
  split; [unfold valid_angle; lia|].
  apply (rotateTo_direct_is_shortest initial 270 90);
    unfold valid_angle; simpl; lia.
Defined.

(** X8. A turn of the cube and a rotation call can be swapped: in either
    order they end at the same tracked angle with the same channel
    registers. *)
Theorem turnCube_commutes_with_rotation c s :
  same_position (exec (turnCube;; perform c) s)
                (exec (perform c;; turnCube) s).
Proof.
  rewrite !exec_seq.
  destruct (exec_perform_as_rotateTo c s) as [v Hv].
  rewrite (Hv (exec turnCube s)) by (by rewrite turnCube_run).
  rewrite (Hv s) by done.
  destruct (angle_guard v) eqn:E.
  - apply angle_guard_valid in E.
    rewrite turnCube_run, !exec_rotateTo_accepted, turnCube_run by done.
    split; simpl; [done|]. by apply insert_insert_ne.
  - by rewrite !exec_rotateTo_rejected.
Qed.

(** X9. Behind the guard of [rotateTo] the index [angleDegree / 90] lies
    inside [rotationTicks], and the entry read there is the tick configured
    for that angle. *)
Theorem rotationTicks_read_in_bounds angleDegree :
  angle_guard angleDegree = true →
  0 ≤ int_div angleDegree 90 < Z.of_nat (length rotationTicks) ∧
  rotationTicks !! Z.to_nat (int_div angleDegree 90)
  = calibrated_tick angleDegree.
Proof.
  intros H. apply angle_guard_valid in H.
  valid_cases H; split; by vm_compute.
Qed.

Lemma rotationTicks_read_in_bounds_witness :
  angle_guard 270 = true ∧
  0 ≤ int_div 270 90 < Z.of_nat (length rotationTicks) ∧
  rotationTicks !! Z.to_nat (int_div 270 90) = calibrated_tick 270.
Proof.
  split; [reflexivity|].
  apply (rotationTicks_read_in_bounds 270). reflexivity.
Defined.

(** X10. A rotation call leaves the turn channel alone: it issues no write to
    it and its register is as before, for every call and every state. *)
Theorem rotation_leaves_turn_channel c s :
  forallb (λ e, negb (writes_channel TURN_SERVO_CHANNEL e))
    (issued (perform c) s) = true ∧
  pwm (exec (perform c) s) !! TURN_SERVO_CHANNEL
  = pwm s !! TURN_SERVO_CHANNEL.
Proof.
  destruct (exec_perform_as_rotateTo c s) as [v Hv].
  unfold issued. rewrite (Hv s) by done. fold (issued (rotateTo v) s).
  destruct (angle_guard v) eqn:E.
  - apply angle_guard_valid in E.
    rewrite issued_rotateTo_accepted, exec_rotateTo_accepted by done.
    split; [reflexivity|]. simpl. by rewrite lookup_insert_ne.
  - rewrite exec_rotateTo_rejected by done. split; [|done].
    rewrite (issued_app _ _ []); [done|].
    by rewrite exec_rotateTo_rejected, app_nil_r.
Qed.

(** X11. From a valid tracked angle one left turn ends where three right
    turns end, same angle and same channel registers.  From 0 both block
    for three rotation steps; from any other stop the left turn blocks for
    four rotation steps less. *)
Theorem rotateLeft_versus_three_rights s :
  valid_angle (rotationAngleDegree s) →
  let right3 := invoke_all (replicate 3 (Rotation RotateRight)) in
  same_position (exec rotateLeft s) (exec right3 s) ∧
  waited right3 s
  = waited rotateLeft s
    + (if rotationAngleDegree s =? 0 then 0 else 4) * ROTATE_DELAY_MS.
Proof.
  intros Hs right3. subst right3.
  destruct s as [a p tr]. simpl in Hs.
  unfold waited, issued, same_position.
  assert (∀ e1 e2 e3 e4 e5 e6 : event,
    drop (length tr) (((tr ++ [e1; e2]) ++ [e3; e4]) ++ [e5; e6])
    = [e1; e2; e3; e4; e5; e6]) as Hdrop3.
  { intros. rewrite <- !app_assoc. apply drop_app_length. }
  assert (∀ e1 e2 : event, drop (length tr) (tr ++ [e1; e2]) = [e1; e2])
    as Hdrop1.
  { intros. apply drop_app_length. }
  valid_cases Hs;
    quarter_turns 3 exec_rotateRight_valid;
    rewrite (exec_rotateLeft_valid (mkState _ _ _))
      by (by apply angle_guard_valid);
    rewrite (exec_rotateTo_accepted _ (mkState _ _ _))
      by (by apply angle_guard_valid);
    simpl; rewrite Hdrop3, Hdrop1, !insert_insert_eq;
    repeat split; reflexivity.
Qed.

Lemma rotateLeft_versus_three_rights_witness :
  valid_angle (rotationAngleDegree (mkState 90 ∅ [])) ∧
  same_position (exec rotateLeft (mkState 90 ∅ []))
    (exec (invoke_all (replicate 3 (Rotation RotateRight)))
       (mkState 90 ∅ [])) ∧
  waited (invoke_all (replicate 3 (Rotation RotateRight))) (mkState 90 ∅ [])
  = waited rotateLeft (mkState 90 ∅ [])
    + (if rotationAngleDegree (mkState 90 ∅ []) =? 0 then 0 else 4)
      * ROTATE_DELAY_MS.
Proof.
  split; [unfold valid_angle; simpl; lia|].
  apply (rotateLeft_versus_three_rights (mkState 90 ∅ [])).
  unfold valid_angle; simpl; lia.
Defined.

(** X20. From a valid tracked angle [a], [initPositions] blocks for one turn
    delay, the [a / 90] rotation steps back to 0, and two rotation delays
    more; homing an object that is at 0 already still takes 1850 ms. *)
Theorem initPositions_wait s :
  valid_angle (rotationAngleDegree s) →
  waited initPositions s
  = TURN_DELAY_MS + (rotationAngleDegree s / 90 + 2) * ROTATE_DELAY_MS.
Proof.
  intros Hs. unfold waited.
  rewrite (issued_app _ _ _ (f_equal trace (initPositions_run s))).
  cbn [wait_ms]. rewrite rotate_delay_valid by (done || by left).
  valid_cases Hs; reflexivity.
Qed.

Lemma initPositions_wait_witness :
  valid_angle (rotationAngleDegree initial) ∧
  waited initPositions initial
  = TURN_DELAY_MS + (rotationAngleDegree initial / 90 + 2) * ROTATE_DELAY_MS.
Proof.
  split; [unfold valid_angle; simpl; lia|].
  apply (initPositions_wait initial). unfold valid_angle; simpl; lia.
Defined.

(** ** SerialCom::receive *)

Import SerialCom.

Lemma pending_after_iteration (rest : list Z) (inc : list (list Z)) :
  (rest ++ hd [] inc) ++ concat (tl inc) = rest ++ concat inc.
Proof.
  destruct inc as [|c inc]; simpl.
  - by rewrite !app_nil_r.
  - by rewrite app_assoc.
Qed.

Lemma drop_tl {A} (l : list A) n : drop n (tl l) = drop (S n) l.
Proof. destruct l; simpl; [by rewrite drop_nil | done]. Qed.

(** One pass over the loop of [receive], started with [i] bytes already
    stored: it stops by itself within the fuel, having stored [k] more. *)
Lemma receive_loop_spec fuel :
  ∀ (i : nat) (p : sketch),
    (i ≤ 32)%nat → (32 - i < fuel)%nat →
    ∃ (k : nat) (p' : sketch),
      receive_loop fuel (Z.of_nat i) p = Some (Z.of_nat (i + k), p') ∧
      (i + k ≤ 32)%nat ∧
      (k ≤ length (pending p))%nat ∧
      serial_incoming p' = drop k (serial_incoming p) ∧
      pending p' = drop k (pending p) ∧
      history p' = history p ++ replicate k (Delay 3) ∧
      ((i + k = 32)%nat ∨ serial_rx p' = []) ∧
      length (readBuffer p') = length (readBuffer p) ∧
      (∀ j, (j < i ∨ i + k ≤ j)%nat →
            readBuffer p' !! j = readBuffer p !! j) ∧
      (length (readBuffer p) = 32%nat →
       ∀ j, (j < k)%nat →
            readBuffer p' !! (i + j)%nat = to_char <$> pending p !! j).
Proof.
  induction fuel as [|fuel IH]; intros i p Hi Hfuel; [lia|].
  destruct p as [rx inc buf h]. cbn [receive_loop].
  unfold Serial_available, bufferSize. cbn [serial_rx].
  destruct rx as [|b rest].
  { (* nothing waiting: the loop is left at once *)
    exists 0%nat, (mkSketch [] inc buf h). cbn [length Z.of_nat Z.ltb Z.compare andb].
    rewrite Nat.add_0_r, app_nil_r.
    repeat split; try done; try lia; try (by right); intros; lia. }
  destruct (Z.ltb_spec (Z.of_nat i) 32) as [Hlt | Hge].
  2: { (* buffer full *)
    replace (0 <? Z.of_nat (length (b :: rest))) with true
      by (symmetry; apply Z.ltb_lt; simpl; lia).
    exists 0%nat, (mkSketch (b :: rest) inc buf h). cbn [andb].
    rewrite Nat.add_0_r, app_nil_r.
    repeat split; try done; try lia; try (left; lia); intros; lia. }
  replace (0 <? Z.of_nat (length (b :: rest))) with true
    by (symmetry; apply Z.ltb_lt; simpl; lia).
  cbn [andb Serial_read serial_rx serial_incoming readBuffer history
       store SerialCom.delay].
  replace (int_add (Z.of_nat i) 1) with (Z.of_nat (S i)).
  2: { unfold int_add. rewrite int_wrap_small; [lia|].
       unfold INT_MIN, INT_MAX, INT_BITS. lia. }
  unfold store, SerialCom.delay.
  cbn [serial_rx serial_incoming readBuffer history].
  rewrite Nat2Z.id.
  destruct (IH (S i)
              (mkSketch (rest ++ hd [] inc) (tl inc)
                 (<[i := to_char b]> buf) (h ++ [Delay (to_ulong 3)])))
    as (k & p' & Hrun & Hk & Hlen & Hinc & Hpend & Hhist & Hexit & Hbl
        & Hkeep & Hfill); [lia | lia |].
  unfold pending in Hlen, Hpend, Hfill.
  cbn [serial_rx serial_incoming readBuffer history] in *.
  rewrite pending_after_iteration in Hlen, Hpend, Hfill.
  rewrite length_insert in Hbl, Hfill.
  exists (S k), p'. unfold pending at 2 3 4. cbn [serial_rx serial_incoming].
  replace (i + S k)%nat with (S i + k)%nat by lia.
  split; [exact Hrun|]. split; [exact Hk|].
  split; [simpl; lia|].
  split; [by rewrite Hinc, drop_tl|].
  split; [exact Hpend|].
  split; [by rewrite Hhist, <- app_assoc|].
  split; [exact Hexit|].
  split; [exact Hbl|].
  split.
  - intros j Hj. rewrite Hkeep by lia.
    apply list_lookup_insert_ne. lia.
  - intros Hb [|j] Hj.
    + rewrite Nat.add_0_r, Hkeep by lia.
      rewrite list_lookup_insert_eq by lia. done.
    + replace (i + S j)%nat with (S i + j)%nat by lia.
      rewrite Hfill by (done || lia). done.
Qed.

Lemma receive_spec p :
  ∃ (k : nat) (p' : sketch),
    receive p = Some (Z.of_nat k, p') ∧
    (k ≤ 32)%nat ∧
    (k ≤ length (pending p))%nat ∧
    serial_incoming p' = drop k (serial_incoming p) ∧
    pending p' = drop k (pending p) ∧
    history p' = history p ++ replicate k (Delay 3) ∧
    (k = 32%nat ∨ serial_rx p' = []) ∧
    length (readBuffer p') = length (readBuffer p) ∧
    (∀ j, (k ≤ j)%nat → readBuffer p' !! j = readBuffer p !! j) ∧
    (length (readBuffer p) = 32%nat →
     ∀ j, (j < k)%nat → readBuffer p' !! j = to_char <$> pending p !! j).
Proof.
  destruct (receive_loop_spec (S (Z.to_nat bufferSize)) 0 p)
    as (k & p' & Hrun & Hk & Hlen & Hinc & Hpend & Hhist & Hexit & Hbl
        & Hkeep & Hfill); [lia | unfold bufferSize; lia |].
  exists k, p'. repeat split; try done.
  all: try (intros j Hj; apply Hkeep; right; simpl; lia).
  all: intros Hb j Hj; by apply (Hfill Hb j).
Qed.

(** When bytes keep coming, the queue is not found empty before the wire is. *)
Lemma receive_loop_drains fuel :
  ∀ i p n p',
    Forall (λ c, c ≠ []) (serial_incoming p) →
    serial_rx p ≠ [] ∨ serial_incoming p = [] →
    receive_loop fuel i p = Some (n, p') →
    n = bufferSize ∨ (n < bufferSize ∧ pending p' = []) ∨ bufferSize < n.
Proof.
  induction fuel as [|fuel IH]; intros i p n p' Hne Hrx Hrun; [done|].
  destruct p as [rx inc buf h]. cbn [receive_loop] in Hrun.
  unfold Serial_available in Hrun. cbn [serial_rx serial_incoming] in *.
  destruct rx as [|b rest].
  - cbn [length Z.of_nat Z.ltb Z.compare andb] in Hrun.
    injection Hrun as <- <-.
    destruct Hrx as [Hrx | ->]; [done|].
    destruct (Z.lt_trichotomy i bufferSize) as [H | [H | H]];
      [right; left; by split | by left | by right; right].
  - replace (0 <? Z.of_nat (length (b :: rest))) with true in Hrun
      by (symmetry; apply Z.ltb_lt; simpl; lia).
    cbn [andb] in Hrun.
    destruct (Z.ltb_spec i bufferSize) as [Hlt | Hge].
    + cbn [Serial_read serial_rx] in Hrun.
      apply IH in Hrun; [done | |];
        unfold store, SerialCom.delay;
        cbn [serial_rx serial_incoming readBuffer history].
      * destruct inc as [|c inc]; [constructor|]. simpl.
        by apply Forall_inv_tail in Hne.
      * destruct inc as [|c inc]; [by right|]. left. simpl.
        apply Forall_inv in Hne. by destruct rest, c.
    + injection Hrun as <- <-.
      destruct (Z.eq_dec i bufferSize) as [-> | Hn];
        [by left | right; right; lia].
Qed.

(** X12. [receive] always returns: its loop ends within [bufferSize + 1]
    tests of the condition.  The count is between 0 and 32 and not more
    than the bytes there were to get, and the call stops only because the
    buffer is full or the queue is empty. *)
Theorem receive_returns_count_in_range p :
  ∃ count p',
    receive p = Some (count, p') ∧
    0 ≤ count ≤ bufferSize ∧
    count ≤ Z.of_nat (length (pending p)) ∧
    (count = bufferSize ∨ serial_rx p' = []).
Proof.
  destruct (receive_spec p)
    as (k & p' & Hrun & Hk & Hlen & _ & _ & _ & Hexit & _).
  exists (Z.of_nat k), p'. unfold bufferSize.
  repeat split; try done; try lia.
  destruct Hexit as [-> | Hrx]; [by left | by right].
Qed.

(** X13. [receive] takes the bytes in the order of their arrival and loses
    none: what is still queued or on the wire afterwards is what was there
    before, less the first [count] bytes. *)
Theorem receive_conserves_bytes p :
  ∃ count p',
    receive p = Some (count, p') ∧
    pending p' = drop (Z.to_nat count) (pending p).
Proof.
  destruct (receive_spec p) as (k & p' & Hrun & _ & _ & _ & Hpend & _).
  exists (Z.of_nat k), p'. by rewrite Nat2Z.id.
Qed.

(** X14. With the static buffer at its 32 entries, the first [count] entries
    after the call are the first [count] bytes that were to come, each cast
    to [char]. *)
Theorem receive_fills_buffer p :
  length (readBuffer p) = 32%nat →
  ∃ count p',
    receive p = Some (count, p') ∧
    take (Z.to_nat count) (readBuffer p')
    = to_char <$> take (Z.to_nat count) (pending p).
Proof.
  intros Hb.
  destruct (receive_spec p)
    as (k & p' & Hrun & Hk & Hlen & _ & _ & _ & _ & Hbl & _ & Hfill).
  exists (Z.of_nat k), p'. split; [done|]. rewrite Nat2Z.id.
  apply list_eq. intros j. rewrite list_lookup_fmap.
  destruct (decide (j < k)%nat) as [Hj | Hj].
  - rewrite !lookup_take_lt by done. by apply Hfill.
  - by rewrite !lookup_take_ge by lia.
Qed.

Lemma receive_fills_buffer_witness :
  length (readBuffer (power_on [72; 200] [[105]; []; [33]])) = 32%nat ∧
  ∃ count p',
    receive (power_on [72; 200] [[105]; []; [33]]) = Some (count, p') ∧
    take (Z.to_nat count) (readBuffer p')
    = to_char <$>
        take (Z.to_nat count) (pending (power_on [72; 200] [[105]; []; [33]])).
Proof.
  split; [reflexivity|].
  apply (receive_fills_buffer (power_on [72; 200] [[105]; []; [33]])).
  reflexivity.
Defined.

(** X15. [receive] does not clear its static buffer: the entries from
    [count] on are what an earlier call left there, and the buffer keeps its
    length. *)
Theorem receive_keeps_stale_tail p :
  ∃ count p',
    receive p = Some (count, p') ∧
    length (readBuffer p') = length (readBuffer p) ∧
    drop (Z.to_nat count) (readBuffer p')
    = drop (Z.to_nat count) (readBuffer p).
Proof.
  destruct (receive_spec p)
    as (k & p' & Hrun & _ & _ & _ & _ & _ & _ & Hbl & Hkeep & _).
  exists (Z.of_nat k), p'. split; [done|]. split; [done|].
  rewrite Nat2Z.id. apply list_eq. intros j.
  rewrite !lookup_drop. apply Hkeep. lia.
Qed.

(** X16. [receive] blocks for 3 ms per byte it stores and does nothing else
    that takes time. *)
Theorem receive_waits_per_byte p :
  ∃ count p',
    receive p = Some (count, p') ∧
    history p' = history p ++ replicate (Z.to_nat count) (Delay 3) ∧
    wait_ms (history p') = wait_ms (history p) + 3 * count.
Proof.
  destruct (receive_spec p) as (k & p' & Hrun & _ & _ & _ & _ & Hh & _).
  exists (Z.of_nat k), p'. rewrite Nat2Z.id. split; [done|].
  split; [done|]. rewrite Hh, wait_ms_app. f_equal.
  clear. induction k as [|k IH]; [done|].
  rewrite Nat2Z.inj_succ. cbn [replicate wait_ms]. lia.
Qed.

(** X17. With no byte waiting in the queue, [receive] reports a count of 0
    at once: nothing is stored, no time is spent, and bytes still on the
    wire are not waited for. *)
Theorem receive_nothing_waiting p :
  serial_rx p = [] → receive p = Some (0, p).
Proof.
  intros Hrx. unfold receive. cbn [receive_loop].
  unfold Serial_available. by rewrite Hrx.
Qed.

Lemma receive_nothing_waiting_witness :
  serial_rx (power_on [] [[82]; [76]]) = [] ∧
  receive (power_on [] [[82]; [76]]) = Some (0, power_on [] [[82]; [76]]).
Proof.
  split; [reflexivity|].
  apply (receive_nothing_waiting (power_on [] [[82]; [76]])). reflexivity.
Defined.



(** X19. When a byte is waiting and at least one more arrives during every
    3 ms wait until the wire is empty, one call takes the whole message, or
    the first 32 bytes of it. *)
Theorem receive_whole_message p :
  serial_rx p ≠ [] →
  Forall (λ c, c ≠ []) (serial_incoming p) →
  ∃ p',
    receive p = Some (Z.min bufferSize (Z.of_nat (length (pending p))), p').
Proof.
  intros Hrx Hne.
  destruct (receive_spec p)
    as (k & p' & Hrun & Hk & Hlen & _ & Hpend & _).
  exists p'. rewrite Hrun. do 2 f_equal.
  destruct (receive_loop_drains _ _ _ _ _ Hne (or_introl Hrx) Hrun)
    as [H | [[H Hnil] | H]]; unfold bufferSize in *; [lia | | lia].
  rewrite Hnil in Hpend. symmetry in Hpend.
  apply drop_nil_inv in Hpend. lia.
Qed.

Lemma receive_whole_message_witness :
  serial_rx (power_on [76] [[76]; [82]; [84]]) ≠ [] ∧
  Forall (λ c, c ≠ []) (serial_incoming (power_on [76] [[76]; [82]; [84]])) ∧
  ∃ p',
    receive (power_on [76] [[76]; [82]; [84]])
    = Some (Z.min bufferSize
              (Z.of_nat (length (pending (power_on [76] [[76]; [82]; [84]])))),
            p').
Proof.
  assert (serial_rx (power_on [76] [[76]; [82]; [84]]) ≠ []) as H1 by done.
  assert (Forall (λ c, c ≠ [])
            (serial_incoming (power_on [76] [[76]; [82]; [84]]))) as H2
    by (repeat constructor; done).
  split; [exact H1|]. split; [exact H2|].
  exact (receive_whole_message _ H1 H2).
Defined.
